(** * Gaussian beam propagation with ABCD matrices (abcd.py)

    A shallow embedding of [abcd.py] and the properties of its q-parameter
    algebra, its ABCD matrix constructors and its propagation routine
    [qpropagate].

    Numbers.  Python floats are read as real numbers and Python complex
    numbers as pairs of reals, with exact arithmetic: rounding, infinities
    and NaN are outside this model, and no statement below relies on the
    value of a division by zero.  Where the source divides two Python
    floats ([float(n0)/float(n1)]), which raises [ZeroDivisionError] on a
    zero divisor, the embedding returns [None].

    State.  [qpropagate] copies the caller's list and then sorts, reverses
    and pops the copy.  Lists are therefore objects in a store, addressed by
    location, and [qpropagate] is a computation over that store.

    Matrices.  The matrix of an element is a numpy array, as every matrix
    constructor returns one, and the arrays of a list are distinct objects.
    [list.sort()] then raises [ValueError] as soon as it compares two
    elements at one position; a call of [qpropagate] ends either with a
    returned q-parameter or with that exception, and the store is kept in
    both cases. *)

From Stdlib Require Import Reals Lra.
From stdpp Require Import base option list sorting gmap strings.

Local Open Scope R_scope.

(** ** Complex numbers *)

Record complex : Type := mkC { re : R; im : R }.

Definition RtoC (x : R) : complex := mkC x 0.

(** [1j] *)
Definition Ci : complex := mkC 0 1.

Definition Cadd (a b : complex) : complex :=
  mkC (re a + re b) (im a + im b).

Definition Cmul (a b : complex) : complex :=
  mkC (re a * re b - im a * im b) (re a * im b + im a * re b).

Definition Cdiv (a b : complex) : complex :=
  let d := re b * re b + im b * im b in
  mkC ((re a * re b + im a * im b) / d) ((im a * re b - re a * im b) / d).

Definition Copp (a : complex) : complex := mkC (- re a) (- im a).

(** [numpy.conj] *)
Definition conj (a : complex) : complex := mkC (re a) (- im a).

Definition Cabs (a : complex) : R := sqrt (re a * re a + im a * im a).

(** [numpy.sqrt] at a complex argument: the principal square root, with
    non-negative real part and an imaginary part of the sign of [im a]. *)
Definition Csqrt (a : complex) : complex :=
  mkC (sqrt ((Cabs a + re a) / 2))
      ((if Rlt_dec (im a) 0 then -1 else 1) * sqrt ((Cabs a - re a) / 2)).

(** Mixed arithmetic: Python promotes the real operand to a complex one. *)
Definition Cadd_r (a : complex) (x : R) : complex := Cadd a (RtoC x).
Definition Cmul_l (x : R) (a : complex) : complex := Cmul (RtoC x) a.
Definition Cmul_r (a : complex) (x : R) : complex := Cmul a (RtoC x).
Definition Cdiv_r (a : complex) (x : R) : complex := Cdiv a (RtoC x).
Definition Cdiv_l (x : R) (a : complex) : complex := Cdiv (RtoC x) a.

(** ** ABCD matrices

    A 2x2 matrix [[m00, m01], [m10, m11]], read by [M[i, j]]. *)

Record matrix : Type := mkM { m00 : R; m01 : R; m10 : R; m11 : R }.

(** The optional argument [R] of [Minterface]: the string default ['inf']
    or a number. *)
Inductive pyarg : Type :=
  | PyStr (s : string)
  | PyNum (x : R).

Definition R_default : pyarg := PyStr "inf".

(** [float(a) / float(b)] on Python floats. *)
Definition float_div (a b : R) : option R :=
  if Req_dec_T b 0 then None else Some (a / b).

Definition Mprop (d : R) : matrix := mkM 1 d 0 1.

Definition Minterface (n0 n1 : R) (Rcurv : pyarg) : option matrix :=
  match float_div n0 n1 with
  | Some r => Some (mkM 1 0 0 r)
  | None => None
  end.

Definition Mlens (f : R) : option matrix :=
  match float_div 1 f with
  | Some r => Some (mkM 1 0 (- r) 1)
  | None => None
  end.

Definition Mmirror (Rcurv : R) : option matrix :=
  match float_div 2 Rcurv with
  | Some r => Some (mkM 1 0 r 1)
  | None => None
  end.

(** ** q-parameter formulas *)

(** [lam = 0.000860] *)
Definition lam : R := 860 / 1000000.

(** [1j * pi * w0**2 / lam] *)
Definition w02q (w0 : R) : complex :=
  Cdiv_r (Cmul_r (Cmul_r Ci PI) (w0 ^ 2)) lam.

(** [np.sqrt(-lam / (pi * np.imag(1 / q)))] *)
Definition q2w (q : complex) : R :=
  sqrt (- lam / (PI * im (Cdiv_l 1 q))).

(** [np.sqrt(np.imag(q) * lam / q)] *)
Definition q2w0 (q : complex) : complex :=
  Csqrt (Cdiv_l (im q * lam) q).

(** [(M[0, 0] * q + M[0, 1]) / (M[1, 0] * q + M[1, 1])] *)
Definition qABCD (q : complex) (M : matrix) : complex :=
  Cdiv (Cadd_r (Cmul_l (m00 M) q) (m01 M))
       (Cadd_r (Cmul_l (m10 M) q) (m11 M)).

(** [-conj(q)] *)
Definition qreverse (q : complex) : complex := Copp (conj q).

(** ** Optical elements and their order

    An element is the Python list [[z-location, ABCD matrix]]; [el[0]] is
    [pos el] and [el[1]] is [mat el]. *)

Record element : Type := mkEl { pos : R; mat : matrix }.

#[global] Instance Rle_decision (x y : R) : Decision (x <= y) := Rle_dec x y.
#[global] Instance Rlt_decision (x y : R) : Decision (x < y) := Rlt_dec x y.
#[global] Instance Rge_decision (x y : R) : Decision (x >= y) := Rge_dec x y.
#[global] Instance Req_decision : EqDecision R := Req_dec_T.

(** [list.sort()] compares two elements with [<] on the Python lists
    [[z, M]].  Unequal positions decide.  At equal positions the comparison
    goes on to the matrices, and the truth value of [M1 == M2] on two numpy
    arrays raises [ValueError]: that is [None]. *)
Definition elem_lt (a b : element) : option bool :=
  if decide (pos a = pos b) then None
  else Some (bool_decide (pos a < pos b)).

(** [list.sort()] is a stable sort by [<]; insertion into a sorted list,
    before the first element that is not smaller.  A comparison that raises
    ends the sort. *)
Fixpoint insert_sorted (x : element) (l : list element)
    : option (list element) :=
  match l with
  | [] => Some [x]
  | y :: l' =>
      match elem_lt y x with
      | None => None
      | Some true =>
          match insert_sorted x l' with
          | Some r => Some (y :: r)
          | None => None
          end
      | Some false => Some (x :: y :: l')
      end
  end.

Fixpoint sort (l : list element) : option (list element) :=
  match l with
  | [] => Some []
  | x :: l' =>
      match sort l' with
      | Some r => insert_sorted x r
      | None => None
      end
  end.

(** [list.pop()]: the last item and the list without it. *)
Fixpoint pop_last {A : Type} (l : list A) : option (A * list A) :=
  match l with
  | [] => None
  | x :: l' =>
      match pop_last l' with
      | None => Some (x, [])
      | Some (y, r) => Some (y, x :: r)
      end
  end.

(** ** The store of list objects *)

Definition loc : Type := positive.

(** How a computation ends: with a value, or with the [ValueError] of a
    comparison of two arrays. *)
Inductive outcome (A : Type) : Type :=
  | Return (a : A)
  | ValueError.

Arguments Return {A} a.
Arguments ValueError {A}.

Module Store.

(** A computation over the store.  It ends with an outcome and a store, or
    it is stuck ([None]: a dangling reference, a [pop] from an empty list,
    or a loop that ran out of fuel). *)
Definition M (A : Type) : Type :=
  gmap loc (list element) ->
  option (outcome A * gmap loc (list element)).

Definition ret {A} (a : A) : M A := fun s => Some (Return a, s).

Definition bind {A B} (m : M A) (k : A -> M B) : M B :=
  fun s => match m s with
           | Some (Return a, s') => k a s'
           | Some (ValueError, s') => Some (ValueError, s')
           | None => None
           end.

Definition fail {A} : M A := fun _ => None.

(** [elements[:]]: a new list object with the same items. *)
Definition copy (l : loc) : M loc :=
  fun s => match s !! l with
           | Some els => let l' := fresh (dom s) in
                         Some (Return l', <[l' := els]> s)
           | None => None
           end.

(** [elements.sort()].  When a comparison raises, the list keeps its items
    (Python leaves them in some order; here, in the order they had). *)
Definition sort_list (l : loc) : M unit :=
  fun s => match s !! l with
           | Some els =>
               match sort els with
               | Some els' => Some (Return tt, <[l := els']> s)
               | None => Some (ValueError, s)
               end
           | None => None
           end.

(** [elements.reverse()] *)
Definition reverse (l : loc) : M unit :=
  fun s => match s !! l with
           | Some els => Some (Return tt, <[l := rev els]> s)
           | None => None
           end.

(** [elements.pop()] *)
Definition pop (l : loc) : M element :=
  fun s => match s !! l with
           | Some els =>
               match pop_last els with
               | Some (el, els') => Some (Return el, <[l := els']> s)
               | None => None
               end
           | None => None
           end.

(** The truth value of a list: it is not empty. *)
Definition truth (l : loc) : M bool :=
  fun s => match s !! l with
           | Some [] => Some (Return false, s)
           | Some (_ :: _) => Some (Return true, s)
           | None => None
           end.

(** [len(elements)] *)
Definition len (l : loc) : M nat :=
  fun s => match s !! l with
           | Some els => Some (Return (length els), s)
           | None => None
           end.

End Store.

Notation "x <- c1 ;; c2" := (Store.bind c1 (fun x => c2))
  (at level 20, c1 at level 99, c2 at level 200, only parsing).
Notation "c1 ;; c2" := (Store.bind c1 (fun _ => c2))
  (at level 100, c2 at level 200, only parsing, right associativity).

(** ** Propagation *)

(** The body of the forward loop after [el = elements.pop()]; the state is
    the pair [(zt, qt)]. *)
Definition body_fwd (z : R) (st : R * complex) (el : element) : R * complex :=
  let '(zt, qt) := st in
  if decide (zt <= pos el <= z) then
    let qt := Cadd_r qt (pos el - zt) in
    let qt := qABCD qt (mat el) in
    (pos el, qt)
  else (zt, qt).

(** The body of the backward loop. *)
Definition body_bwd (z : R) (st : R * complex) (el : element) : R * complex :=
  let '(zt, qt) := st in
  if decide (z <= pos el <= zt) then
    let qt := Cadd_r qt (zt - pos el) in
    let qt := qABCD qt (mat el) in
    (pos el, qt)
  else (zt, qt).

(** [while elements: el = elements.pop(); body].  Every iteration pops one
    item, so the loop is given one more unit of fuel than the list has
    items. *)
Fixpoint while_pop (body : R * complex -> element -> R * complex)
    (fuel : nat) (elements : loc) (st : R * complex) : Store.M (R * complex) :=
  match fuel with
  | O => Store.fail
  | S fuel' =>
      b <- Store.truth elements ;;
      if b then
        el <- Store.pop elements ;;
        while_pop body fuel' elements (body st el)
      else Store.ret st
  end.

Definition qpropagate (zini : R) (qini : complex) (elements : loc) (z : R)
    : Store.M complex :=
  elements <- Store.copy elements ;;
  Store.sort_list elements ;;
  let zt := zini in
  let qt := qini in
  if decide (z >= zini) then
    Store.reverse elements ;;
    n <- Store.len elements ;;
    st <- while_pop (body_fwd z) (S n) elements (zt, qt) ;;
    let '(zt, qt) := st in
    let qt := Cadd_r qt (z - zt) in
    Store.ret qt
  else
    let qt := qreverse qt in
    n <- Store.len elements ;;
    st <- while_pop (body_bwd z) (S n) elements (zt, qt) ;;
    let '(zt, qt) := st in
    let qt := Cadd_r qt (zt - z) in
    let qt := qreverse qt in
    Store.ret qt.

(** ** What [qpropagate] computes, as functions of the list's items *)

(** Ascending and descending position order of a list, strict and not. *)
Definition pos_lt (a b : element) : Prop := pos a < pos b.
Definition pos_gt (a b : element) : Prop := pos b < pos a.
Definition pos_le (a b : element) : Prop := pos a <= pos b.
Definition pos_ge (a b : element) : Prop := pos b <= pos a.

(** The value returned by [qpropagate] when the sorted copy is [asc]: the
    forward loop pops the reversed sorted copy from its end, so it meets
    the items of [asc] from first to last; the backward loop pops the
    sorted copy itself, so it meets them from last to first. *)
Definition qpropagate_fun (zini : R) (qini : complex) (asc : list element)
    (z : R) : complex :=
  if decide (z >= zini) then
    let '(zt, qt) := fold_left (body_fwd z) asc (zini, qini) in
    Cadd_r qt (z - zt)
  else
    let '(zt, qt) := fold_left (body_bwd z) (rev asc)
                       (zini, qreverse qini) in
    qreverse (Cadd_r qt (zt - z)).

(** The items whose transform a loop applies, in the order of application,
    when it meets the items of [l] in turn from the walked location [zt]. *)
Fixpoint applied_fwd (z zt : R) (l : list element) : list element :=
  match l with
  | [] => []
  | el :: l' =>
      if decide (zt <= pos el <= z) then el :: applied_fwd z (pos el) l'
      else applied_fwd z zt l'
  end.

Fixpoint applied_bwd (z zt : R) (l : list element) : list element :=
  match l with
  | [] => []
  | el :: l' =>
      if decide (z <= pos el <= zt) then el :: applied_bwd z (pos el) l'
      else applied_bwd z zt l'
  end.

(** The traversal of a call whose sorted copy is [asc]: the items it
    applies, in order. *)
Definition traversed (zini : R) (asc : list element) (z : R) : list element :=
  if decide (z >= zini) then applied_fwd z zini asc
  else applied_bwd z zini (rev asc).

(** One item applied without a test: the gap to it, then its transform. *)
Definition apply_fwd (st : R * complex) (el : element) : R * complex :=
  let '(zt, qt) := st in (pos el, qABCD (Cadd_r qt (pos el - zt)) (mat el)).

Definition apply_bwd (st : R * complex) (el : element) : R * complex :=
  let '(zt, qt) := st in (pos el, qABCD (Cadd_r qt (zt - pos el)) (mat el)).

(** The q-parameter obtained by applying the items of [path] in turn and
    then the last gap to [z]. *)
Definition qalong (zini : R) (qini : complex) (path : list element) (z : R)
    : complex :=
  if decide (z >= zini) then
    let '(zt, qt) := fold_left apply_fwd path (zini, qini) in
    Cadd_r qt (z - zt)
  else
    let '(zt, qt) := fold_left apply_bwd path (zini, qreverse qini) in
    qreverse (Cadd_r qt (zt - z)).

(** Whether a position lies between [zini] and [z], ends included. *)
Definition in_span (zini z p : R) : Prop :=
  (zini <= p <= z) \/ (z <= p <= zini).

(** The forward walk in words: the items are taken in the order of [l];
    the one taken is applied if its position lies within [[zt, z]] for the
    walked location [zt] (the q-parameter advances across the gap to that
    position, the item's ABCD transform is applied, and the walked location
    becomes that position), and is passed over otherwise; when no item is
    left, the gap from the walked location to [z] is added. *)
Fixpoint forward_walk (z zt : R) (qt : complex) (l : list element) : complex :=
  match l with
  | [] => Cadd_r qt (z - zt)
  | el :: rest =>
      if decide (zt <= pos el /\ pos el <= z) then
        forward_walk z (pos el)
          (qABCD (Cadd_r qt (pos el - zt)) (mat el)) rest
      else forward_walk z zt qt rest
  end.

(** The result of a run: the value returned, if the run returns. *)
Definition result {A} (r : option (outcome A * gmap loc (list element)))
    : option A :=
  match r with
  | Some (Return a, _) => Some a
  | _ => None
  end.

(** How a run ends, without the final store. *)
Definition outcome_of {A} (r : option (outcome A * gmap loc (list element)))
    : option (outcome A) :=
  fst <$> r.

(** ** A small optical system

    Two elements on the axis: a matrix that adds [1] to the q-parameter at
    position [1] and the identity matrix at position [2]; and a caller's
    store that holds them in one list object. *)
Definition shift_at_1 : element := mkEl 1 (Mprop 1).
Definition ident_at_2 : element := mkEl 2 (mkM 1 0 0 1).
Definition two_elements : list element := [shift_at_1; ident_at_2].
Definition caller_list : loc := 1%positive.
Definition caller_store (els : list element) : gmap loc (list element) :=
  {[ caller_list := els ]}.

(** ** The remaining q-parameter formula and matrix algebra *)

Definition Csub (a b : complex) : complex :=
  mkC (re a - re b) (im a - im b).

Definition Csub_l (x : R) (a : complex) : complex := Csub (RtoC x) a.

(** [1/(1/R - 1j * lam / (pi * w**2))] *)
Definition wR2q (w Rcurv : R) : complex :=
  Cdiv_l 1 (Csub_l (1 / Rcurv) (Cdiv_r (Cmul_r Ci lam) (PI * w ^ 2))).

(** The determinant [A D - B C] and the product of two ABCD matrices;
    [Mmul N M] is the matrix of [M] followed by [N]. *)
Definition Mdet (M : matrix) : R := m00 M * m11 M - m01 M * m10 M.

Definition Mmul (N M : matrix) : matrix :=
  mkM (m00 N * m00 M + m01 N * m10 M) (m00 N * m01 M + m01 N * m11 M)
      (m10 N * m00 M + m11 N * m10 M) (m10 N * m01 M + m11 N * m11 M).

(** The squared modulus of the denominator [M[1, 0] * q + M[1, 1]]. *)
Definition denom2 (q : complex) (M : matrix) : R :=
  (m10 M * re q + m11 M) * (m10 M * re q + m11 M)
  + (m10 M * im q) * (m10 M * im q).

(** Matrices with equal diagonal entries and a positive determinant: those
    of [Mprop], [Mlens] and [Mmirror]. *)
Definition symmetric_el (e : element) : Prop :=
  m00 (mat e) = m11 (mat e) /\ 0 < Mdet (mat e).

#[global] Instance in_span_dec zini z p : Decision (in_span zini z p).
Proof. unfold in_span. apply _. Defined.

(** The items of a list that lie in the closed span between [zini] and [z]. *)
Definition within (zini z : R) (els : list element) : list element :=
  filter (fun e => in_span zini z (pos e)) els.

(** The items within the span, in the order a call meets them: upwards for
    a forward call, downwards for a backward one. *)
Definition span_path (zini : R) (asc : list element) (z : R) : list element :=
  if decide (z >= zini) then within zini z asc else rev (within zini z asc).

(** ** Arithmetic of complex numbers *)

Lemma complex_eq (a b : complex) : re a = re b -> im a = im b -> a = b.
Proof. destruct a, b; simpl; intros -> ->; reflexivity. Qed.

Lemma lam_pos : 0 < lam.
Proof. unfold lam. lra. Qed.

Lemma qreverse_Cadd_r (q : complex) (x : R) :
  qreverse (Cadd_r (qreverse q) x) = Cadd_r q (- x).
Proof. apply complex_eq; simpl; lra. Qed.

(** A matrix [[1, d], [0, 1]] adds [d]; the identity matrix changes nothing. *)
Lemma qABCD_shift (q : complex) (d : R) : qABCD q (mkM 1 d 0 1) = Cadd_r q d.
Proof.
  unfold qABCD, Cadd_r, Cmul_l, Cdiv, Cadd, Cmul, RtoC; simpl.
  apply complex_eq; simpl; field.
Qed.

Lemma qABCD_ident (q : complex) : qABCD q (mkM 1 0 0 1) = q.
Proof.
  unfold qABCD, Cadd_r, Cmul_l, Cdiv, Cadd, Cmul, RtoC; simpl.
  apply complex_eq; simpl; field.
Qed.

(** ** The waist formulas *)

Lemma w02q_re (w0 : R) : re (w02q w0) = 0.
Proof.
  unfold w02q, Cdiv_r, Cmul_r, Cdiv, Cmul, RtoC, Ci; simpl.
  unfold lam. field.
Qed.

Lemma w02q_im (w0 : R) : im (w02q w0) = PI * w0 ^ 2 / lam.
Proof.
  unfold w02q, Cdiv_r, Cmul_r, Cdiv, Cmul, RtoC, Ci; simpl.
  unfold lam. field.
Qed.

Lemma w02q_im_pos (w0 : R) : 0 < w0 -> 0 < im (w02q w0).
Proof.
  intros Hw. rewrite w02q_im.
  apply Rdiv_lt_0_compat; [|apply lam_pos].
  apply Rmult_lt_0_compat; [apply PI_RGT_0|].
  apply pow_lt; assumption.
Qed.

(** In exact arithmetic the spot size at a waist point is the waist size. *)
Lemma q2w_w02q (w0 : R) : 0 < w0 -> q2w (w02q w0) = w0.
Proof.
  intros Hw. unfold q2w.
  pose proof (w02q_im_pos w0 Hw) as Him. pose proof (w02q_re w0) as Hre.
  pose proof (w02q_im w0) as Heq.
  pose proof PI_RGT_0 as Hpi. pose proof lam_pos as Hlam.
  destruct (w02q w0) as [a b]; simpl in Him, Hre, Heq; subst a.
  assert (- lam / (PI * im (Cdiv_l 1 (mkC 0 b))) = w0 * w0) as ->.
  { unfold Cdiv_l, Cdiv, RtoC; simpl.
    assert (w0 <> 0) by lra. rewrite Heq. field. lra. }
  apply sqrt_square. lra.
Qed.

(** What [q2w0] returns at a waist point: a complex number that does not
    depend on the waist size. *)
Lemma q2w0_w02q (w0 : R) :
  0 < w0 -> q2w0 (w02q w0) = mkC (sqrt (lam / 2)) (- sqrt (lam / 2)).
Proof.
  intros Hw. unfold q2w0.
  pose proof (w02q_im_pos w0 Hw) as Him. pose proof (w02q_re w0) as Hre.
  pose proof lam_pos as Hlam.
  destruct (w02q w0) as [a b]; simpl in Him, Hre; subst a. cbn [im].
  assert (Cdiv_l (b * lam) (mkC 0 b) = mkC 0 (- lam)) as ->.
  { unfold Cdiv_l, Cdiv, RtoC; simpl.
    apply complex_eq; simpl; field; lra. }
  unfold Csqrt, Cabs; simpl.
  replace (0 * 0 + - lam * - lam) with (lam * lam) by ring.
  rewrite sqrt_square by lra.
  destruct (Rlt_dec (- lam) 0) as [_|Hn]; [|lra].
  apply complex_eq; simpl.
  - f_equal. lra.
  - replace ((lam - 0) / 2) with (lam / 2) by lra. lra.
Qed.

(** ** The sort *)

Lemma elem_lt_ne (a b : element) :
  pos a <> pos b -> elem_lt a b = Some (bool_decide (pos a < pos b)).
Proof. intros H. unfold elem_lt. rewrite decide_False by exact H. reflexivity. Qed.

Lemma elem_lt_tie (a b : element) : pos a = pos b -> elem_lt a b = None.
Proof. intros H. unfold elem_lt. rewrite decide_True by exact H. reflexivity. Qed.

Lemma sorted_lt_NoDup (l : list element) :
  StronglySorted pos_lt l -> NoDup (pos <$> l).
Proof.
  induction 1 as [|x l Hl IH Hx]; simpl; constructor; [|exact IH].
  intros Hin. apply list_elem_of_fmap in Hin as (y & Hy & Hin).
  rewrite Forall_forall in Hx. specialize (Hx y Hin). unfold pos_lt in Hx. lra.
Qed.

Lemma sorted_lt_le (l : list element) :
  StronglySorted pos_lt l -> StronglySorted pos_le l.
Proof.
  induction 1 as [|x l Hl IH Hx]; constructor; [exact IH|].
  eapply Forall_impl; [exact Hx|]. unfold pos_lt, pos_le. intros y Hy. lra.
Qed.

(** Inserting at a new position succeeds and keeps the list ascending. *)
Lemma insert_sorted_Some (x : element) (l : list element) :
  StronglySorted pos_lt l -> pos x ∉ (pos <$> l) ->
  exists r, insert_sorted x l = Some r /\ r ≡ₚ x :: l /\
            StronglySorted pos_lt r.
Proof.
  induction 1 as [|y l Hl IH Hy]; intros Hnew; simpl.
  - exists [x]. repeat split; repeat constructor.
  - assert (pos y <> pos x) as Hne.
    { intros E. apply Hnew. simpl. rewrite E. left. }
    assert (pos x ∉ (pos <$> l)) as Hnew'.
    { intros Hin. apply Hnew. simpl. right. exact Hin. }
    rewrite elem_lt_ne by exact Hne.
    destruct (bool_decide (pos y < pos x)) eqn:Hlt.
    + apply bool_decide_eq_true in Hlt.
      destruct (IH Hnew') as (r & -> & Hperm & Hsorted).
      exists (y :: r). split; [reflexivity|]. split.
      * rewrite Hperm. apply Permutation_swap.
      * constructor; [exact Hsorted|]. rewrite Hperm.
        constructor; [exact Hlt|exact Hy].
    + apply bool_decide_eq_false in Hlt.
      exists (x :: y :: l). split; [reflexivity|]. split; [reflexivity|].
      assert (pos x < pos y) as Hxy by lra.
      constructor; [constructor; assumption|].
      constructor; [exact Hxy|].
      eapply Forall_impl; [exact Hy|]. unfold pos_lt. intros z Hz. lra.
Qed.

(** Inserting at a position already present raises. *)
Lemma insert_sorted_None (x : element) (l : list element) :
  StronglySorted pos_lt l -> pos x ∈ (pos <$> l) -> insert_sorted x l = None.
Proof.
  induction 1 as [|y l Hl IH Hy]; intros Hin; simpl.
  - inversion Hin.
  - destruct (decide (pos y = pos x)) as [E|Hne].
    { rewrite elem_lt_tie by exact E. reflexivity. }
    rewrite elem_lt_ne by exact Hne.
    assert (pos x ∈ (pos <$> l)) as Hin'.
    { simpl in Hin. apply elem_of_cons in Hin as [E|Hin]; [|exact Hin].
      exfalso. apply Hne. symmetry. exact E. }
    destruct (bool_decide (pos y < pos x)) eqn:Hlt.
    + rewrite (IH Hin'). reflexivity.
    + apply bool_decide_eq_false in Hlt. exfalso.
      apply list_elem_of_fmap in Hin' as (z & Hz & Hin').
      rewrite Forall_forall in Hy. specialize (Hy z Hin').
      unfold pos_lt in Hy. lra.
Qed.

(** The sort succeeds exactly on the lists without two items at one
    position, and then gives the ascending arrangement. *)
Lemma sort_Some (l : list element) :
  NoDup (pos <$> l) ->
  exists asc, sort l = Some asc /\ asc ≡ₚ l /\ StronglySorted pos_lt asc.
Proof.
  induction l as [|x l IH]; simpl; intros Hnd.
  - exists []. repeat split; constructor.
  - apply NoDup_cons in Hnd as [Hx Hnd].
    destruct (IH Hnd) as (r & -> & Hperm & Hsorted).
    destruct (insert_sorted_Some x r Hsorted) as (r' & Hr' & Hperm' & Hs').
    { rewrite Hperm. exact Hx. }
    exists r'. split; [exact Hr'|]. split; [|exact Hs'].
    rewrite Hperm', Hperm. reflexivity.
Qed.

Lemma sort_None (l : list element) : ~ NoDup (pos <$> l) -> sort l = None.
Proof.
  induction l as [|x l IH]; simpl; intros Hnd.
  - exfalso. apply Hnd. constructor.
  - destruct (decide (NoDup (pos <$> l))) as [Hl|Hl].
    + destruct (sort_Some l Hl) as (r & -> & Hperm & Hsorted).
      apply insert_sorted_None; [exact Hsorted|].
      rewrite Hperm.
      destruct (decide (pos x ∈ (pos <$> l))) as [Hin|Hout]; [exact Hin|].
      exfalso. apply Hnd. constructor; assumption.
    + rewrite (IH Hl). reflexivity.
Qed.

Lemma sorted_lt_unique (l1 l2 : list element) :
  StronglySorted pos_lt l1 -> StronglySorted pos_lt l2 -> l1 ≡ₚ l2 -> l1 = l2.
Proof.
  apply StronglySorted_unique_strong.
  intros x1 x2 _ _ H1 H2. unfold pos_lt in H1, H2. lra.
Qed.

(** The sorted copy is the ascending arrangement of the list. *)
Lemma sort_ascending (els asc : list element) :
  asc ≡ₚ els -> StronglySorted pos_lt asc -> sort els = Some asc.
Proof.
  intros Hperm Hsorted.
  destruct (sort_Some els) as (r & Hr & Hperm' & Hs').
  { rewrite <- Hperm. apply sorted_lt_NoDup, Hsorted. }
  rewrite Hr. f_equal. apply sorted_lt_unique; [exact Hs'|exact Hsorted|].
  rewrite Hperm', Hperm. reflexivity.
Qed.

Lemma sort_perm_eq (l1 l2 : list element) : l1 ≡ₚ l2 -> sort l1 = sort l2.
Proof.
  intros Hperm.
  destruct (decide (NoDup (pos <$> l1))) as [Hnd|Hnd].
  - destruct (sort_Some l1 Hnd) as (r & Hr & Hperm' & Hs').
    rewrite Hr. symmetry. apply sort_ascending; [|exact Hs'].
    rewrite Hperm', Hperm. reflexivity.
  - rewrite (sort_None l1 Hnd). symmetry. apply sort_None.
    rewrite <- Hperm. exact Hnd.
Qed.

Lemma StronglySorted_snoc {A} (Rel : relation A) (l : list A) (x : A) :
  StronglySorted Rel l -> Forall (fun y => Rel y x) l ->
  StronglySorted Rel (l ++ [x]).
Proof.
  induction 1 as [|y l Hl IH Hy]; simpl; intros Hall.
  - repeat constructor.
  - inversion Hall as [|? ? Hyx Hrest]; subst.
    constructor; [apply IH, Hrest|].
    apply Forall_app; split; [exact Hy|]. repeat constructor. exact Hyx.
Qed.

Lemma sorted_rev (l : list element) :
  StronglySorted pos_le l -> StronglySorted pos_ge (rev l).
Proof.
  induction 1 as [|x s Hs IH Hx]; simpl; [constructor|].
  apply StronglySorted_snoc; [exact IH|].
  apply Forall_rev. exact Hx.
Qed.

Lemma StronglySorted_filter {A} (Rel : relation A) (P : A -> Prop)
    `{!forall x, Decision (P x)} (l : list A) :
  StronglySorted Rel l -> StronglySorted Rel (filter P l).
Proof.
  induction 1 as [|x l Hl IH Hx]; [constructor|].
  rewrite filter_cons. destruct (decide (P x)); [|exact IH].
  constructor; [exact IH|].
  apply Forall_forall. intros y Hy. apply list_elem_of_filter in Hy as [_ Hy].
  rewrite Forall_forall in Hx. apply Hx, Hy.
Qed.

Lemma filter_rev {A} (P : A -> Prop) `{!forall x, Decision (P x)} (l : list A) :
  filter P (rev l) = rev (filter P l).
Proof.
  induction l as [|x l IH]; [reflexivity|].
  simpl rev. rewrite filter_app, IH, filter_cons.
  destruct (decide (P x)).
  - rewrite filter_cons_True by assumption. reflexivity.
  - rewrite filter_cons_False by assumption.
    rewrite filter_nil, app_nil_r. reflexivity.
Qed.

(** ** Running [qpropagate] on a store *)

Lemma pop_last_snoc {A} (l : list A) (x : A) : pop_last (l ++ [x]) = Some (x, l).
Proof.
  induction l as [|y l IH]; simpl; [reflexivity|].
  rewrite IH. reflexivity.
Qed.

Lemma truth_empty (s : gmap loc (list element)) (l : loc) :
  s !! l = Some [] -> Store.truth l s = Some (Return false, s).
Proof. intros Hl. unfold Store.truth. rewrite Hl. reflexivity. Qed.

Lemma truth_snoc (s : gmap loc (list element)) (l : loc) ys x :
  s !! l = Some (ys ++ [x]) -> Store.truth l s = Some (Return true, s).
Proof.
  intros Hl. unfold Store.truth. rewrite Hl.
  destruct ys; reflexivity.
Qed.

Lemma pop_snoc (s : gmap loc (list element)) (l : loc) ys x :
  s !! l = Some (ys ++ [x]) -> Store.pop l s = Some (Return x, <[l := ys]> s).
Proof.
  intros Hl. unfold Store.pop. rewrite Hl, pop_last_snoc. reflexivity.
Qed.

(** The loop meets the items of the list from its last to its first, empties
    the list, and does not run out of fuel. *)
Lemma while_pop_run body (xs : list element) :
  forall (fuel : nat) (st : R * complex) (s : gmap loc (list element)) (l : loc),
    s !! l = Some xs -> (length xs < fuel)%nat ->
    while_pop body fuel l st s
    = Some (Return (fold_left body (rev xs) st), <[l := []]> s).
Proof.
  induction xs as [|x ys IH] using rev_ind; intros fuel st s l Hl Hfuel.
  - destruct fuel as [|fuel]; [inversion Hfuel|].
    simpl. unfold Store.bind. rewrite (truth_empty _ _ Hl). unfold Store.ret.
    rewrite insert_id by exact Hl. reflexivity.
  - destruct fuel as [|fuel]; [inversion Hfuel|].
    rewrite length_app in Hfuel. simpl in Hfuel.
    simpl. unfold Store.bind.
    rewrite (truth_snoc _ _ _ _ Hl), (pop_snoc _ _ _ _ Hl).
    rewrite (IH fuel (body st x) (<[l := ys]> s) l).
    + rewrite insert_insert_eq, rev_app_distr. reflexivity.
    + apply lookup_insert_eq.
    + lia.
Qed.

(** When the sort succeeds the call returns, with the value
    [qpropagate_fun] gives for the sorted copy; the only change to the
    store is the emptied copy. *)
Lemma qpropagate_run (zini : R) (qini : complex) (l : loc) (z : R)
    (s : gmap loc (list element)) (els asc : list element) :
  s !! l = Some els -> sort els = Some asc ->
  qpropagate zini qini l z s
  = Some (Return (qpropagate_fun zini qini asc z),
          <[fresh (dom s) := []]> s).
Proof.
  intros Hl Hsort. unfold qpropagate, qpropagate_fun.
  unfold Store.bind at 1. unfold Store.copy. rewrite Hl. cbv zeta.
  set (l' := fresh (dom s)).
  unfold Store.bind at 1. unfold Store.sort_list.
  rewrite lookup_insert_eq, Hsort, insert_insert_eq.
  destruct (decide (z >= zini)) as [Hge|Hlt].
  - unfold Store.bind at 1. unfold Store.reverse.
    rewrite lookup_insert_eq, insert_insert_eq.
    unfold Store.bind at 1. unfold Store.len. rewrite lookup_insert_eq.
    unfold Store.bind.
    rewrite (while_pop_run _ (rev asc)); [|apply lookup_insert_eq|lia].
    rewrite rev_involutive, insert_insert_eq.
    destruct (fold_left _ _ _) as [zt qt]. reflexivity.
  - unfold Store.bind at 1. unfold Store.len. rewrite lookup_insert_eq.
    unfold Store.bind.
    rewrite (while_pop_run _ asc); [|apply lookup_insert_eq|lia].
    rewrite insert_insert_eq.
    destruct (fold_left _ _ _) as [zt qt]. reflexivity.
Qed.

(** When the sort raises, so does the call; the store holds the copy. *)
Lemma qpropagate_raise (zini : R) (qini : complex) (l : loc) (z : R)
    (s : gmap loc (list element)) (els : list element) :
  s !! l = Some els -> sort els = None ->
  qpropagate zini qini l z s
  = Some (ValueError, <[fresh (dom s) := els]> s).
Proof.
  intros Hl Hsort. unfold qpropagate.
  unfold Store.bind at 1. unfold Store.copy. rewrite Hl. cbv zeta.
  unfold Store.bind at 1. unfold Store.sort_list.
  rewrite lookup_insert_eq, Hsort. reflexivity.
Qed.

(** Two elements at one position make the call raise. *)
Lemma qpropagate_tie_raises (zini : R) (qini : complex) (l : loc) (z : R)
    (s : gmap loc (list element)) (els : list element) :
  s !! l = Some els -> ~ NoDup (pos <$> els) ->
  outcome_of (qpropagate zini qini l z s) = Some ValueError.
Proof.
  intros Hl Hnd.
  rewrite (qpropagate_raise _ _ _ _ _ els Hl (sort_None els Hnd)).
  reflexivity.
Qed.

Lemma lookup_after_call (s : gmap loc (list element)) (xs : list element)
    (k : loc) (ys : list element) :
  s !! k = Some ys -> <[fresh (dom s) := xs]> s !! k = Some ys.
Proof.
  intros Hk. rewrite lookup_insert_ne; [exact Hk|].
  intros E. apply (is_fresh (dom s)). rewrite E.
  apply elem_of_dom. exists ys. exact Hk.
Qed.

Lemma qpropagate_result (zini : R) (qini : complex) (l : loc) (z : R)
    (s : gmap loc (list element)) (els asc : list element) :
  s !! l = Some els -> asc ≡ₚ els -> StronglySorted pos_lt asc ->
  result (qpropagate zini qini l z s) = Some (qpropagate_fun zini qini asc z).
Proof.
  intros Hl Hperm Hsorted.
  rewrite (qpropagate_run _ _ _ _ _ els asc Hl); [reflexivity|].
  apply sort_ascending; assumption.
Qed.

Lemma ascending_exists (els : list element) :
  NoDup (pos <$> els) ->
  exists asc, asc ≡ₚ els /\ StronglySorted pos_lt asc.
Proof.
  intros Hnd. destruct (sort_Some els Hnd) as (asc & _ & Hperm & Hsorted).
  exists asc. split; assumption.
Qed.

(** ** The traversal *)

Lemma fold_body_fwd (z : R) (l : list element) :
  forall zt qt,
    fold_left (body_fwd z) l (zt, qt)
    = fold_left apply_fwd (applied_fwd z zt l) (zt, qt).
Proof.
  induction l as [|el l IH]; intros zt qt; simpl; [reflexivity|].
  destruct (decide (zt <= pos el <= z)); simpl; apply IH.
Qed.

Lemma fold_body_bwd (z : R) (l : list element) :
  forall zt qt,
    fold_left (body_bwd z) l (zt, qt)
    = fold_left apply_bwd (applied_bwd z zt l) (zt, qt).
Proof.
  induction l as [|el l IH]; intros zt qt; simpl; [reflexivity|].
  destruct (decide (z <= pos el <= zt)); simpl; apply IH.
Qed.

(** The value of a call is the composition along its traversal. *)
Lemma qpropagate_fun_traversed (zini : R) (qini : complex)
    (asc : list element) (z : R) :
  qpropagate_fun zini qini asc z = qalong zini qini (traversed zini asc z) z.
Proof.
  unfold qpropagate_fun, qalong, traversed.
  destruct (decide (z >= zini)).
  - rewrite fold_body_fwd. reflexivity.
  - rewrite fold_body_bwd. reflexivity.
Qed.

(** On an ascending list the forward loop applies exactly the items that lie
    in [[zini, z]], once the walked location is at or before all of them. *)
Lemma applied_fwd_filter (zini z : R) (l : list element) :
  StronglySorted pos_le l ->
  forall zt, zini <= zt ->
    Forall (fun e => zini <= pos e -> zt <= pos e) l ->
    applied_fwd z zt l = filter (fun e => zini <= pos e <= z) l.
Proof.
  induction 1 as [|el l Hl IH Hel]; intros zt Hzt Hall; simpl; [reflexivity|].
  inversion Hall as [|? ? Hhd Htl]; subst.
  unfold filter at 1; simpl. fold (filter (fun e => zini <= pos e <= z) l).
  destruct (decide (zt <= pos el <= z)) as [Hin|Hout].
  - rewrite decide_True by lra. f_equal.
    apply IH; [lra|].
    eapply Forall_impl; [exact Hel|]. unfold pos_le. intros e He _. exact He.
  - rewrite decide_False.
    + apply IH; assumption.
    + intros [H1 H2]. apply Hout. split; [apply Hhd, H1|exact H2].
Qed.

Lemma applied_bwd_filter (zini z : R) (l : list element) :
  StronglySorted pos_ge l ->
  forall zt, zt <= zini ->
    Forall (fun e => pos e <= zini -> pos e <= zt) l ->
    applied_bwd z zt l = filter (fun e => z <= pos e <= zini) l.
Proof.
  induction 1 as [|el l Hl IH Hel]; intros zt Hzt Hall; simpl; [reflexivity|].
  inversion Hall as [|? ? Hhd Htl]; subst.
  unfold filter at 1; simpl. fold (filter (fun e => z <= pos e <= zini) l).
  destruct (decide (z <= pos el <= zt)) as [Hin|Hout].
  - rewrite decide_True by lra. f_equal.
    apply IH; [lra|].
    eapply Forall_impl; [exact Hel|]. unfold pos_ge. intros e He _. exact He.
  - rewrite decide_False.
    + apply IH; assumption.
    + intros [H1 H2]. apply Hout. split; [exact H1|apply Hhd, H2].
Qed.

(** The traversal is the list of the items within the span, read upwards
    by a forward call and downwards by a backward one. *)
Lemma traversed_span_path (zini z : R) (asc : list element) :
  StronglySorted pos_le asc -> traversed zini asc z = span_path zini asc z.
Proof.
  intros Hsorted. unfold traversed, span_path, within.
  destruct (decide (z >= zini)) as [Hge|Hlt].
  - rewrite (applied_fwd_filter zini z);
      [|exact Hsorted|lra|apply Forall_forall; tauto].
    apply list_filter_iff. intros e. unfold in_span. lra.
  - rewrite (applied_bwd_filter zini z);
      [|apply sorted_rev, Hsorted|lra|apply Forall_forall; tauto].
    rewrite filter_rev. f_equal.
    apply list_filter_iff. intros e. unfold in_span. lra.
Qed.

Lemma elem_of_span_path (zini z : R) (asc : list element) (e : element) :
  e ∈ span_path zini asc z <-> e ∈ asc /\ in_span zini z (pos e).
Proof.
  assert (e ∈ within zini z asc <-> e ∈ asc /\ in_span zini z (pos e)) as H.
  { unfold within. rewrite list_elem_of_filter. tauto. }
  unfold span_path. destruct (decide (z >= zini)); [exact H|].
  rewrite list_elem_of_In, <- in_rev, <- list_elem_of_In. exact H.
Qed.

Lemma body_fwd_in (z zt : R) (qt : complex) (el : element) :
  zt <= pos el <= z ->
  body_fwd z (zt, qt) el = (pos el, qABCD (Cadd_r qt (pos el - zt)) (mat el)).
Proof. intros H. unfold body_fwd. rewrite decide_True by exact H. reflexivity. Qed.

Lemma body_fwd_out (z zt : R) (qt : complex) (el : element) :
  ~ (zt <= pos el <= z) -> body_fwd z (zt, qt) el = (zt, qt).
Proof. intros H. unfold body_fwd. rewrite decide_False by exact H. reflexivity. Qed.

Lemma caller_store_lookup (els : list element) :
  caller_store els !! caller_list = Some els.
Proof. apply lookup_singleton_eq. Qed.

Lemma two_elements_ascending : StronglySorted pos_lt two_elements.
Proof.
  unfold two_elements, shift_at_1, ident_at_2.
  repeat constructor. unfold pos_lt; simpl. lra.
Qed.

Lemma two_elements_NoDup : NoDup (pos <$> two_elements).
Proof. apply sorted_lt_NoDup, two_elements_ascending. Qed.

(** ** The q-parameter algebra *)

(** C1: at the waist size [0.1] the code's [q2w0(w02q(w0))] is the complex
    number [sqrt(lam/2) - i sqrt(lam/2)], which is not the waist size [w0];
    the round trip through [q2w0] that the claim states fails on the code. *)
Theorem q2w0_w02q_not_waist :
  q2w0 (w02q (1 / 10)) = mkC (sqrt (lam / 2)) (- sqrt (lam / 2)) /\
  q2w0 (w02q (1 / 10)) <> RtoC (1 / 10).
Proof.
  assert (q2w0 (w02q (1 / 10)) = mkC (sqrt (lam / 2)) (- sqrt (lam / 2))) as E
    by (apply q2w0_w02q; lra).
  split; [exact E|].
  rewrite E. intros H. apply (f_equal im) in H. simpl in H.
  assert (0 < sqrt (lam / 2)) by (apply sqrt_lt_R0; pose proof lam_pos; lra).
  lra.
Qed.

(** C8: for every complex [q] and real [d], [qABCD(q, Mprop(d))] is [q + d],
    the additive offset that [qpropagate] applies across a gap. *)
Theorem qABCD_Mprop (q : complex) (d : R) : qABCD q (Mprop d) = Cadd_r q d.
Proof.
  destruct q as [a b].
  unfold qABCD, Mprop, Cadd_r, Cmul_l, Cdiv, Cadd, Cmul, RtoC; simpl.
  apply complex_eq; simpl; field.
Qed.

(** C9: for every complex [q], [qreverse(qreverse(q))] is [q]. *)
Theorem qreverse_involutive (q : complex) : qreverse (qreverse q) = q.
Proof. apply complex_eq; simpl; lra. Qed.

(** C10: for every complex [q], [qreverse(q)] has the imaginary part of [q]
    and the negated real part of [q]; so a positive imaginary part stays
    positive under direction reversal. *)
Theorem qreverse_re_im (q : complex) :
  im (qreverse q) = im q /\ re (qreverse q) = - re q /\
  (0 < im q -> 0 < im (qreverse q)).
Proof. simpl. repeat split; lra. Qed.

Lemma qreverse_re_im_witness :
  im (qreverse Ci) = im Ci /\ re (qreverse Ci) = - re Ci /\
  (0 < im Ci -> 0 < im (qreverse Ci)).
Proof. exact (qreverse_re_im Ci). Defined.

(** ** The matrix constructors *)

(** C3: for all reals [n0] and [n1] with [n1] nonzero and every value of the
    curvature argument, [Minterface(n0, n1, R)] is [[1, 0], [0, n0/n1]],
    the same matrix as with the default ['inf']. *)
Theorem Minterface_ignores_R (n0 n1 : R) (Rcurv : pyarg) :
  n1 <> 0 ->
  Minterface n0 n1 Rcurv = Some (mkM 1 0 0 (n0 / n1)) /\
  Minterface n0 n1 Rcurv = Minterface n0 n1 R_default.
Proof.
  intros Hn. unfold Minterface, float_div.
  destruct (Req_dec_T n1 0) as [E|_]; [contradiction|]. split; reflexivity.
Qed.

Lemma Minterface_ignores_R_witness :
  Minterface 1 (3 / 2) (PyNum 50) = Some (mkM 1 0 0 (1 / (3 / 2))) /\
  Minterface 1 (3 / 2) (PyNum 50) = Minterface 1 (3 / 2) R_default.
Proof. apply (Minterface_ignores_R 1 (3 / 2) (PyNum 50)). lra. Defined.

(** ** The propagation routine *)

(** C4: with an empty element list, [qpropagate(z_ini, q_ini, [], z)]
    returns [q_ini + (z - z_ini)], for [z >= z_ini] and for [z < z_ini]. *)
Theorem qpropagate_empty (zini : R) (qini : complex) (l : loc) (z : R)
    (s : gmap loc (list element)) :
  s !! l = Some [] ->
  result (qpropagate zini qini l z s) = Some (Cadd_r qini (z - zini)).
Proof.
  intros Hl.
  rewrite (qpropagate_run _ _ _ _ _ [] [] Hl eq_refl). unfold result. f_equal.
  unfold qpropagate_fun. simpl.
  destruct (decide (z >= zini)); [reflexivity|].
  rewrite qreverse_Cadd_r. f_equal. lra.
Qed.

Lemma qpropagate_empty_witness :
  result (qpropagate 5 Ci caller_list 0 (caller_store []))
  = Some (Cadd_r Ci (0 - 5)).
Proof. apply (qpropagate_empty 5 Ci caller_list 0 (caller_store [])). reflexivity. Defined.

Lemma forward_walk_fold (z : R) (l : list element) :
  forall zt qt,
    (let '(zt', qt') := fold_left (body_fwd z) l (zt, qt) in
     Cadd_r qt' (z - zt'))
    = forward_walk z zt qt l.
Proof.
  induction l as [|el l IH]; intros zt qt; [reflexivity|].
  cbn [fold_left forward_walk].
  destruct (decide (zt <= pos el <= z)) as [Hin|Hout].
  - rewrite body_fwd_in by exact Hin. apply IH.
  - rewrite body_fwd_out by exact Hout. apply IH.
Qed.

(** C2, as the code has it: when [z >= z_ini] and no two elements share a
    position, the call takes the elements in ascending position order,
    lowest position first; it applies each element whose position lies in
    [[zt, z]] for the walked location [zt] (the gap to it, then its ABCD
    transform, then [zt] moves to its position), and it returns the outcome
    plus the last gap to [z]. *)
Theorem qpropagate_forward_ascending (zini : R) (qini : complex) (l : loc)
    (z : R) (s : gmap loc (list element)) (els asc : list element) :
  z >= zini -> s !! l = Some els ->
  asc ≡ₚ els -> StronglySorted pos_lt asc ->
  result (qpropagate zini qini l z s) = Some (forward_walk z zini qini asc).
Proof.
  intros Hge Hl Hperm Hsorted.
  rewrite (qpropagate_result _ _ _ _ _ els asc Hl Hperm Hsorted). f_equal.
  unfold qpropagate_fun. rewrite decide_True by exact Hge.
  apply forward_walk_fold.
Qed.

Lemma qpropagate_forward_ascending_witness :
  result (qpropagate 0 Ci caller_list 3
            (caller_store [ident_at_2; shift_at_1]))
  = Some (forward_walk 3 0 Ci [shift_at_1; ident_at_2]).
Proof.
  apply (qpropagate_forward_ascending 0 Ci caller_list 3
           (caller_store [ident_at_2; shift_at_1])
           [ident_at_2; shift_at_1] [shift_at_1; ident_at_2]).
  - lra.
  - reflexivity.
  - apply perm_swap.
  - apply two_elements_ascending.
Defined.

Lemma forward_walk_in (z zt : R) (qt : complex) (el : element)
    (rest : list element) :
  zt <= pos el <= z ->
  forward_walk z zt qt (el :: rest)
  = forward_walk z (pos el) (qABCD (Cadd_r qt (pos el - zt)) (mat el)) rest.
Proof. intros H. cbn [forward_walk]. rewrite decide_True by exact H. reflexivity. Qed.

Lemma forward_walk_out (z zt : R) (qt : complex) (el : element)
    (rest : list element) :
  ~ (zt <= pos el <= z) ->
  forward_walk z zt qt (el :: rest) = forward_walk z zt qt rest.
Proof. intros H. cbn [forward_walk]. rewrite decide_False by exact H. reflexivity. Qed.

(** The code on the small system, from [0] to [3]: both items are applied. *)
Lemma qpropagate_two_elements :
  result (qpropagate 0 Ci caller_list 3 (caller_store two_elements))
  = Some (mkC 4 1).
Proof.
  rewrite (qpropagate_result _ _ _ _ _ two_elements two_elements
             (caller_store_lookup two_elements) (reflexivity _)
             two_elements_ascending).
  f_equal. unfold qpropagate_fun. rewrite decide_True by lra.
  rewrite forward_walk_fold. unfold two_elements.
  rewrite forward_walk_in by (simpl; lra).
  rewrite forward_walk_in by (simpl; lra).
  unfold shift_at_1, ident_at_2, Mprop. simpl pos. simpl mat.
  rewrite qABCD_ident, qABCD_shift.
  apply complex_eq; simpl; lra.
Qed.

(** The same walk in descending order: the item at [2] is applied first,
    and the item at [1] then fails the test against the walked location
    [2]. *)
Lemma forward_walk_descending_two_elements :
  forward_walk 3 0 Ci [ident_at_2; shift_at_1] = mkC 3 1.
Proof.
  rewrite forward_walk_in by (simpl; lra).
  rewrite forward_walk_out by (simpl; lra).
  unfold ident_at_2. simpl pos. simpl mat. rewrite qABCD_ident.
  apply complex_eq; simpl; lra.
Qed.

(** C2, as stated, fails: from [0] to [3] (so [z >= z_ini]) over the items
    at [1] and [2], whose descending arrangement is the item at [2] and
    then the item at [1], the code returns [4 + i], and the walk that
    takes the highest position first returns [3 + i]. *)
Lemma qpropagate_forward_not_descending :
  3 >= 0 /\
  [ident_at_2; shift_at_1] ≡ₚ two_elements /\
  StronglySorted pos_gt [ident_at_2; shift_at_1] /\
  result (qpropagate 0 Ci caller_list 3 (caller_store two_elements))
  <> Some (forward_walk 3 0 Ci [ident_at_2; shift_at_1]).
Proof.
  split; [lra|]. split; [apply perm_swap|]. split.
  { unfold shift_at_1, ident_at_2. repeat constructor.
    unfold pos_gt; simpl. lra. }
  rewrite qpropagate_two_elements, forward_walk_descending_two_elements.
  intros H. injection H as H. lra.
Qed.




Lemma qpropagate_outcome (zini : R) (qini : complex) (l : loc) (z : R)
    (s : gmap loc (list element)) (els : list element) :
  s !! l = Some els ->
  outcome_of (qpropagate zini qini l z s)
  = Some (match sort els with
          | Some asc => Return (qpropagate_fun zini qini asc z)
          | None => ValueError
          end).
Proof.
  intros Hl. destruct (sort els) as [asc|] eqn:Hsort.
  - rewrite (qpropagate_run _ _ _ _ _ els asc Hl Hsort). reflexivity.
  - rewrite (qpropagate_raise _ _ _ _ _ els Hl Hsort). reflexivity.
Qed.

(** C6: two element lists with the same items in different input orders end
    the call the same way, for every [z_ini], [q_ini] and [z]; when no two
    items share a position, both calls return, with the same q-parameter. *)
Theorem qpropagate_order_invariant (zini : R) (qini : complex) (z : R)
    (l1 l2 : loc) (s1 s2 : gmap loc (list element))
    (els1 els2 : list element) :
  els1 ≡ₚ els2 -> s1 !! l1 = Some els1 -> s2 !! l2 = Some els2 ->
  outcome_of (qpropagate zini qini l1 z s1)
  = outcome_of (qpropagate zini qini l2 z s2) /\
  (NoDup (pos <$> els1) ->
   exists q : complex,
     result (qpropagate zini qini l1 z s1) = Some q /\
     result (qpropagate zini qini l2 z s2) = Some q).
Proof.
  intros Hp H1 H2. split.
  - rewrite (qpropagate_outcome _ _ _ _ _ els1 H1).
    rewrite (qpropagate_outcome _ _ _ _ _ els2 H2).
    rewrite (sort_perm_eq els1 els2 Hp). reflexivity.
  - intros Hnd. destruct (ascending_exists els1 Hnd) as (asc & Hperm & Hsorted).
    exists (qpropagate_fun zini qini asc z). split.
    + apply (qpropagate_result _ _ _ _ _ els1); assumption.
    + apply (qpropagate_result _ _ _ _ _ els2); [exact H2| |exact Hsorted].
      rewrite Hperm. exact Hp.
Qed.

Lemma qpropagate_order_invariant_witness :
  outcome_of (qpropagate 0 Ci caller_list 3
                (caller_store [ident_at_2; shift_at_1]))
  = outcome_of (qpropagate 0 Ci caller_list 3
                  (caller_store [shift_at_1; ident_at_2])) /\
  (NoDup (pos <$> [ident_at_2; shift_at_1]) ->
   exists q : complex,
     result (qpropagate 0 Ci caller_list 3
               (caller_store [ident_at_2; shift_at_1])) = Some q /\
     result (qpropagate 0 Ci caller_list 3
               (caller_store [shift_at_1; ident_at_2])) = Some q).
Proof.
  apply (qpropagate_order_invariant 0 Ci 3 caller_list caller_list
           (caller_store [ident_at_2; shift_at_1])
           (caller_store [shift_at_1; ident_at_2])
           [ident_at_2; shift_at_1] [shift_at_1; ident_at_2]).
  - apply perm_swap.
  - reflexivity.
  - reflexivity.
Defined.

(** C7: after every call, whether it returns or raises, the caller's list
    holds the same items in the same order as before, and so does every
    other list of the store; the call returns when no two items share a
    position. *)
Theorem qpropagate_preserves_elements (zini : R) (qini : complex) (l : loc)
    (z : R) (s : gmap loc (list element)) (els : list element) :
  s !! l = Some els ->
  exists (o : outcome complex) (s' : gmap loc (list element)),
    qpropagate zini qini l z s = Some (o, s') /\
    s' !! l = Some els /\
    (forall (k : loc) (xs : list element),
        s !! k = Some xs -> s' !! k = Some xs) /\
    (NoDup (pos <$> els) -> exists q : complex, o = Return q).
Proof.
  intros Hl. destruct (sort els) as [asc|] eqn:Hsort.
  - eexists _, _. split; [apply (qpropagate_run _ _ _ _ _ els asc Hl Hsort)|].
    split; [apply lookup_after_call, Hl|].
    split; [intros k xs; apply lookup_after_call|].
    intros _. eexists. reflexivity.
  - eexists _, _. split; [apply (qpropagate_raise _ _ _ _ _ els Hl Hsort)|].
    split; [apply lookup_after_call, Hl|].
    split; [intros k xs; apply lookup_after_call|].
    intros Hnd. destruct (sort_Some els Hnd) as (asc & Hasc & _).
    rewrite Hasc in Hsort. discriminate Hsort.
Qed.

Lemma qpropagate_preserves_elements_witness :
  exists (o : outcome complex) (s' : gmap loc (list element)),
    qpropagate 0 Ci caller_list 3 (caller_store [ident_at_2; shift_at_1])
    = Some (o, s') /\
    s' !! caller_list = Some [ident_at_2; shift_at_1] /\
    (forall (k : loc) (xs : list element),
        caller_store [ident_at_2; shift_at_1] !! k = Some xs ->
        s' !! k = Some xs) /\
    (NoDup (pos <$> [ident_at_2; shift_at_1]) ->
     exists q : complex, o = Return q).
Proof.
  apply (qpropagate_preserves_elements 0 Ci caller_list 3
           (caller_store [ident_at_2; shift_at_1]) [ident_at_2; shift_at_1]).
  reflexivity.
Defined.

(** ** Further properties of the q-parameter algebra *)

Lemma denom2_pos (q : complex) (M : matrix) :
  0 < im q -> Mdet M <> 0 -> 0 < denom2 q M.
Proof.
  destruct q as [x y], M as [a b c d]. unfold Mdet, denom2; simpl.
  intros Hy Hdet.
  destruct (Req_dec_T c 0) as [->|Hc].
  - assert (d <> 0) by (intros ->; apply Hdet; ring). nra.
  - assert (c * y <> 0) as Hcy
      by (apply Rmult_integral_contrapositive_currified; lra).
    pose proof (Rsqr_pos_lt _ Hcy) as H1.
    pose proof (Rle_0_sqr (c * x + d)) as H2.
    unfold Rsqr in H1, H2. lra.
Qed.

Lemma qABCD_im (q : complex) (M : matrix) :
  denom2 q M <> 0 -> im (qABCD q M) = Mdet M * im q / denom2 q M.
Proof.
  destruct q as [x y], M as [a b c d]. unfold Mdet, denom2; simpl.
  intros Hn. field_simplify_eq; [ring|exact Hn].
Qed.

Lemma qABCD_im_pos (q : complex) (M : matrix) :
  0 < im q -> 0 < Mdet M -> 0 < im (qABCD q M).
Proof.
  intros Hq Hdet. rewrite qABCD_im.
  - apply Rdiv_lt_0_compat; [nra|apply denom2_pos; lra].
  - pose proof (denom2_pos q M Hq). lra.
Qed.

(** X1: a matrix of positive determinant keeps the imaginary part of the
    q-parameter positive. *)
Theorem qABCD_preserves_validity (q : complex) (M : matrix) :
  0 < im q -> 0 < Mdet M -> 0 < im (qABCD q M).
Proof.
  intros Hq Hdet.
  assert (0 < denom2 q M) as Hn by (apply denom2_pos; lra).
  rewrite qABCD_im by lra.
  apply Rdiv_lt_0_compat; [|exact Hn].
  apply Rmult_lt_0_compat; assumption.
Qed.

Lemma qABCD_preserves_validity_witness : 0 < im (qABCD Ci (Mprop 2)).
Proof.
  apply (qABCD_preserves_validity Ci (Mprop 2)).
  - simpl. lra.
  - unfold Mdet; simpl. lra.
Defined.

Lemma denom2_compose (q : complex) (M N : matrix) :
  denom2 q M <> 0 ->
  denom2 (qABCD q M) N = denom2 q (Mmul N M) / denom2 q M.
Proof.
  destruct q as [x y], M as [a b c d], N as [a' b' c' d'].
  unfold denom2; simpl. intros H1. field_simplify_eq; [ring|exact H1].
Qed.

(** X2: applying [M] and then [N] is applying the matrix product [N M],
    when neither denominator vanishes. *)
Theorem qABCD_compose (q : complex) (M N : matrix) :
  denom2 q M <> 0 -> denom2 (qABCD q M) N <> 0 ->
  qABCD (qABCD q M) N = qABCD q (Mmul N M).
Proof.
  intros H1 H2.
  assert (denom2 q (Mmul N M) <> 0) as H3.
  { intros E. apply H2. rewrite denom2_compose by exact H1. rewrite E. field. exact H1. }
  destruct q as [x y], M as [a b c d], N as [a' b' c' d'].
  unfold denom2 in *; simpl in H1, H3.
  assert ((c' * ((a * x + b) * (c * x + d) + a * y * (c * y)) +
      d' * ((c * x + d) * (c * x + d) + c * y * (c * y))) *
     (c' * ((a * x + b) * (c * x + d) + a * y * (c * y)) +
      d' * ((c * x + d) * (c * x + d) + c * y * (c * y))) +
     c' * (a * y * (c * x + d) - (a * x + b) * (c * y)) *
     (c' * (a * y * (c * x + d) - (a * x + b) * (c * y))) <> 0) as H4.
  { intros E. 
    assert ((((c' * a + d' * c) * x + (c' * b + d' * d)) *
      ((c' * a + d' * c) * x + (c' * b + d' * d)) +
      (c' * a + d' * c) * y * ((c' * a + d' * c) * y)) * ((c * x + d) * (c * x + d) + c * y * (c * y)) = 0) as E2 by (rewrite <- E; ring).
    apply Rmult_integral in E2. destruct E2; contradiction. }
  clear H2.
  apply complex_eq; simpl.
  - field_simplify_eq; [ring|]. repeat split; assumption.
  - field_simplify_eq; [ring|]. repeat split; assumption.
Qed.

Lemma qABCD_compose_witness :
  qABCD (qABCD Ci (Mprop 1)) (Mprop 2) = qABCD Ci (Mmul (Mprop 2) (Mprop 1)).
Proof.
  apply (qABCD_compose Ci (Mprop 1) (Mprop 2)).
  - unfold denom2; simpl. lra.
  - unfold denom2; simpl. lra.
Defined.

(** ** Lenses, mirrors and interfaces *)

(** A matrix [[1, 0], [c, 1]] adds [c] to [1/q]: the imaginary part of [1/q],
    and with it the spot size, is unchanged. *)
Lemma q2w_power (q : complex) (c : R) :
  0 < im q -> q2w (qABCD q (mkM 1 0 c 1)) = q2w q.
Proof.
  intros Hq. unfold q2w. f_equal. f_equal. f_equal.
  assert (0 < denom2 q (mkM 1 0 c 1)) as Hd.
  { apply denom2_pos; [exact Hq|]. unfold Mdet; simpl. lra. }
  destruct q as [x y]. unfold denom2 in Hd. simpl in Hd, Hq. simpl.
  assert (0 < x * x + y * y) by nra.
  assert ((x * (c * x + 1) + y * (c * y)) * (x * (c * x + 1) + y * (c * y)) +
     (y * (c * x + 1) - x * (c * y)) * (y * (c * x + 1) - x * (c * y)) <> 0).
  { replace (y * (c * x + 1) - x * (c * y)) with y by ring.
    pose proof (Rle_0_sqr (x * (c * x + 1) + y * (c * y))) as H1.
    unfold Rsqr in H1. nra. }
  field_simplify_eq; [ring|]. repeat split; try lra; assumption.
Qed.

Lemma Mlens_value (f : R) : f <> 0 -> Mlens f = Some (mkM 1 0 (- (1 / f)) 1).
Proof.
  intros Hf. unfold Mlens, float_div.
  destruct (Req_dec_T f 0); [contradiction|reflexivity].
Qed.

Lemma Mmirror_value (Rc : R) : Rc <> 0 -> Mmirror Rc = Some (mkM 1 0 (2 / Rc) 1).
Proof.
  intros HR. unfold Mmirror, float_div.
  destruct (Req_dec_T Rc 0); [contradiction|reflexivity].
Qed.

Lemma Minterface_value (n0 n1 : R) (Rc : pyarg) :
  n1 <> 0 -> Minterface n0 n1 Rc = Some (mkM 1 0 0 (n0 / n1)).
Proof.
  intros Hn. unfold Minterface, float_div.
  destruct (Req_dec_T n1 0); [contradiction|reflexivity].
Qed.

(** X3: the thin lens law.  For a nonzero focal length [f], [Mlens(f)]
    returns a matrix, and through it [1/q] loses [1/f]. *)
Theorem Mlens_thin_lens_law (f : R) (q : complex) :
  f <> 0 -> 0 < im q ->
  exists M : matrix,
    Mlens f = Some M /\
    Cdiv_l 1 (qABCD q M) = Cadd_r (Cdiv_l 1 q) (- (1 / f)).
Proof.
  intros Hf Hq. eexists. split; [apply Mlens_value, Hf|].
  assert (0 < denom2 q (mkM 1 0 (- (1 / f)) 1)) as Hd.
  { apply denom2_pos; [exact Hq|]. unfold Mdet; simpl. lra. }
  destruct q as [x y]. unfold denom2 in Hd. simpl in Hd, Hq.
  assert (0 < x * x + y * y) by nra.
  set (c := - (1 / f)) in *.
  assert ((x * (c * x + 1) + y * (c * y)) * (x * (c * x + 1) + y * (c * y)) +
     (y * (c * x + 1) - x * (c * y)) * (y * (c * x + 1) - x * (c * y)) <> 0).
  { replace (y * (c * x + 1) - x * (c * y)) with y by ring.
    pose proof (Rle_0_sqr (x * (c * x + 1) + y * (c * y))) as H1.
    unfold Rsqr in H1. nra. }
  apply complex_eq; simpl; fold c; field_simplify_eq; try ring;
    repeat split; try lra; assumption.
Qed.

Lemma Mlens_thin_lens_law_witness :
  exists M : matrix,
    Mlens 100 = Some M /\
    Cdiv_l 1 (qABCD Ci M) = Cadd_r (Cdiv_l 1 Ci) (- (1 / 100)).
Proof.
  apply (Mlens_thin_lens_law 100 Ci).
  - lra.
  - simpl. lra.
Defined.

(** X4: a thin lens leaves the spot size unchanged: for a nonzero focal
    length and a q-parameter of positive imaginary part, [q2w] is the same
    before and after [Mlens(f)]. *)
Theorem Mlens_spot_size (f : R) (q : complex) :
  f <> 0 -> 0 < im q ->
  exists M : matrix, Mlens f = Some M /\ q2w (qABCD q M) = q2w q.
Proof.
  intros Hf Hq. eexists. split; [apply Mlens_value, Hf|].
  apply q2w_power, Hq.
Qed.

Lemma Mlens_spot_size_witness :
  exists M : matrix, Mlens 100 = Some M /\ q2w (qABCD Ci M) = q2w Ci.
Proof.
  apply (Mlens_spot_size 100 Ci).
  - lra.
  - simpl. lra.
Defined.

(** X5: a curved mirror leaves the spot size unchanged: for a nonzero radius
    and a q-parameter of positive imaginary part, [q2w] is the same before
    and after [Mmirror(R)]. *)
Theorem Mmirror_spot_size (Rc : R) (q : complex) :
  Rc <> 0 -> 0 < im q ->
  exists M : matrix, Mmirror Rc = Some M /\ q2w (qABCD q M) = q2w q.
Proof.
  intros HR Hq. eexists. split; [apply Mmirror_value, HR|].
  apply q2w_power, Hq.
Qed.

Lemma Mmirror_spot_size_witness :
  exists M : matrix, Mmirror (-500) = Some M /\ q2w (qABCD Ci M) = q2w Ci.
Proof.
  apply (Mmirror_spot_size (-500) Ci).
  - lra.
  - simpl. lra.
Defined.

(** X6: a flat interface scales the q-parameter by [n1/n0]: for nonzero
    indices, [Minterface(n0, n1, R)] returns a matrix that sends [q] to
    [q * (n1/n0)]. *)
Theorem Minterface_scales (n0 n1 : R) (Rc : pyarg) (q : complex) :
  n0 <> 0 -> n1 <> 0 ->
  exists M : matrix,
    Minterface n0 n1 Rc = Some M /\ qABCD q M = Cmul_r q (n1 / n0).
Proof.
  intros Hn0 Hn1. eexists. split; [apply Minterface_value, Hn1|].
  destruct q as [x y]. apply complex_eq; simpl; field; split; assumption.
Qed.

Lemma Minterface_scales_witness :
  exists M : matrix,
    Minterface 1 (3 / 2) R_default = Some M /\
    qABCD Ci M = Cmul_r Ci (3 / 2 / 1).
Proof.
  apply (Minterface_scales 1 (3 / 2) R_default Ci); lra.
Defined.

Lemma pow2_pos (w : R) : w <> 0 -> 0 < w ^ 2.
Proof.
  intros Hw. pose proof (Rsqr_pos_lt w Hw) as H. unfold Rsqr in H.
  simpl. lra.
Qed.

Lemma Cinv_involutive (u : complex) :
  re u * re u + im u * im u <> 0 -> Cdiv_l 1 (Cdiv_l 1 u) = u.
Proof.
  destruct u as [x y]; simpl. intros Hu.
  unfold Cdiv_l, Cdiv, RtoC; simpl.
  assert ((1 * x + 0 * y) / (x * x + y * y) * ((1 * x + 0 * y) / (x * x + y * y)) +
          (0 * x - 1 * y) / (x * x + y * y) * ((0 * x - 1 * y) / (x * x + y * y))
          = 1 / (x * x + y * y)) as E by (field; exact Hu).
  rewrite E.
  apply complex_eq; simpl; field; exact Hu.
Qed.

Lemma wR2q_arg (w Rc : R) :
  w <> 0 ->
  Csub_l (1 / Rc) (Cdiv_r (Cmul_r Ci lam) (PI * w ^ 2))
  = mkC (1 / Rc) (- (lam / (PI * w ^ 2))).
Proof.
  intros Hw. pose proof PI_RGT_0 as Hpi. generalize (1 / Rc). intros a.
  unfold Csub_l, Csub, Cdiv_r, Cmul_r, Cdiv, Cmul, RtoC, Ci; simpl.
  apply complex_eq; simpl; field; split; lra.
Qed.

Lemma wR2q_inverse (w Rc : R) :
  w <> 0 ->
  Cdiv_l 1 (wR2q w Rc) = mkC (1 / Rc) (- (lam / (PI * w ^ 2))).
Proof.
  intros Hw. pose proof PI_RGT_0 as Hpi. pose proof lam_pos as Hlam.
  unfold wR2q. rewrite wR2q_arg by exact Hw.
  apply Cinv_involutive. cbn [re im].
  assert (0 < lam / (PI * w ^ 2)).
  { apply Rdiv_lt_0_compat; [exact Hlam|].
    apply Rmult_lt_0_compat; [exact Hpi|]. apply pow2_pos; exact Hw. }
  generalize dependent (lam / (PI * w ^ 2)). intros c Hc.
  generalize (1 / Rc). intros a.
  pose proof (Rle_0_sqr a) as Ha. unfold Rsqr in Ha.
  assert (0 < c * c) by (apply Rmult_lt_0_compat; lra).
  intros E. replace (- c * - c) with (c * c) in E by ring. lra.
Qed.

(** X7: for a positive spot size [w] and a nonzero radius of curvature [R],
    [q2w(wR2q(w, R))] is [w]. *)
Theorem q2w_wR2q (w Rc : R) : 0 < w -> Rc <> 0 -> q2w (wR2q w Rc) = w.
Proof.
  intros Hw _. unfold q2w. rewrite wR2q_inverse by lra. simpl.
  pose proof PI_RGT_0 as Hpi. pose proof lam_pos as Hlam.
  replace (- lam / (PI * - (lam / (PI * (w * (w * 1)))))) with (w * w)
    by (field; repeat split; lra).
  apply sqrt_square. lra.
Qed.

Lemma q2w_wR2q_witness : q2w (wR2q (1 / 10) 500) = 1 / 10.
Proof. apply (q2w_wR2q (1 / 10) 500); lra. Defined.

(** X8: for a nonzero spot size and a nonzero radius of curvature,
    [wR2q(w, R)] has a positive imaginary part. *)
Theorem wR2q_valid (w Rc : R) : w <> 0 -> Rc <> 0 -> 0 < im (wR2q w Rc).
Proof.
  intros Hw _. pose proof PI_RGT_0 as Hpi. pose proof lam_pos as Hlam.
  unfold wR2q. rewrite wR2q_arg by exact Hw.
  assert (0 < lam / (PI * w ^ 2)) as Hc.
  { apply Rdiv_lt_0_compat; [exact Hlam|].
    apply Rmult_lt_0_compat; [exact Hpi|]. apply pow2_pos; exact Hw. }
  set (c := lam / (PI * w ^ 2)) in *. set (a := 1 / Rc).
  unfold Cdiv_l, Cdiv, RtoC; simpl.
  assert (0 < a * a + - c * - c) by nra.
  replace ((0 * a - 1 * - c) / (a * a + - c * - c)) with (c / (a * a + - c * - c))
    by (field; lra).
  apply Rdiv_lt_0_compat; assumption.
Qed.

Lemma wR2q_valid_witness : 0 < im (wR2q (1 / 10) 500).
Proof. apply (wR2q_valid (1 / 10) 500); lra. Defined.

(** X9: the spot size at distance [z] from a waist of size [w0 > 0]:
    [q2w(w02q(w0) + z)] is [w0 * sqrt(1 + (z / zR)^2)] with the Rayleigh
    range [zR = pi * w0^2 / lam]. *)
Theorem q2w_from_waist (w0 z : R) :
  0 < w0 ->
  q2w (Cadd_r (w02q w0) z) = w0 * sqrt (1 + (z / (PI * w0 ^ 2 / lam)) ^ 2).
Proof.
  intros Hw. pose proof PI_RGT_0 as Hpi. pose proof lam_pos as Hlam.
  pose proof (w02q_im_pos w0 Hw) as Him. pose proof (w02q_re w0) as Hre.
  pose proof (w02q_im w0) as Heq. rewrite <- Heq.
  unfold q2w. destruct (w02q w0) as [a b]; simpl in Him, Hre, Heq; subst a.
  cbn [im].
  assert (0 < w0 * w0) by nra.
  rewrite <- (sqrt_square w0) at 1 by lra. rewrite <- sqrt_mult_alt by lra.
  f_equal. unfold Cadd_r, Cadd, Cdiv_l, Cdiv, RtoC; simpl.
  assert (0 < (0 + z) * (0 + z) + (b + 0) * (b + 0)) by nra.
  assert (w0 * w0 = b * lam / PI) as ->.
  { rewrite Heq. field. split; lra. }
  field. repeat split; lra.
Qed.

Lemma q2w_from_waist_witness :
  q2w (Cadd_r (w02q (1 / 10)) 300)
  = 1 / 10 * sqrt (1 + (300 / (PI * (1 / 10) ^ 2 / lam)) ^ 2).
Proof. apply (q2w_from_waist (1 / 10) 300). lra. Defined.

(** ** Further properties of the propagation routine *)

Lemma qreverse_qreverse (q : complex) : qreverse (qreverse q) = q.
Proof. apply complex_eq; simpl; lra. Qed.

Lemma im_Cadd_r (q : complex) (x : R) : im (Cadd_r q x) = im q.
Proof. simpl. lra. Qed.

Lemma im_qreverse (q : complex) : im (qreverse q) = im q.
Proof. simpl. lra. Qed.

Lemma Cadd_r_Cadd_r (q : complex) (x y : R) :
  Cadd_r (Cadd_r q x) y = Cadd_r q (x + y).
Proof. apply complex_eq; simpl; lra. Qed.

Lemma qreverse_shift (q : complex) (d : R) :
  Cadd_r (qreverse (Cadd_r q d)) d = qreverse q.
Proof. apply complex_eq; simpl; lra. Qed.

Lemma qpropagate_fun_span (zini : R) (qini : complex) (asc : list element)
    (z : R) :
  StronglySorted pos_lt asc ->
  qpropagate_fun zini qini asc z = qalong zini qini (span_path zini asc z) z.
Proof.
  intros Hsorted. rewrite qpropagate_fun_traversed.
  rewrite traversed_span_path by (apply sorted_lt_le, Hsorted). reflexivity.
Qed.

(** X10: on a list without two elements at one position, with [asc] its
    ascending arrangement, a call returns the composition (the gap to the
    element, then its transform, for each one in turn, then the last gap)
    along exactly the elements whose positions lie in the closed span
    between [z_ini] and [z]: in ascending order for [z >= z_ini], in
    descending order for [z < z_ini]. *)
Theorem qpropagate_applies_span (zini : R) (qini : complex) (l : loc)
    (z : R) (s : gmap loc (list element)) (els asc : list element) :
  s !! l = Some els -> asc ≡ₚ els -> StronglySorted pos_lt asc ->
  result (qpropagate zini qini l z s)
  = Some (qalong zini qini
            (if decide (z >= zini)
             then filter (fun e => in_span zini z (pos e)) asc
             else rev (filter (fun e => in_span zini z (pos e)) asc)) z).
Proof.
  intros Hl Hperm Hsorted.
  rewrite (qpropagate_result _ _ _ _ _ els asc Hl Hperm Hsorted).
  rewrite (qpropagate_fun_span _ _ _ _ Hsorted). reflexivity.
Qed.

Lemma qpropagate_applies_span_witness :
  result (qpropagate 3 Ci caller_list 0
            (caller_store [ident_at_2; shift_at_1]))
  = Some (qalong 3 Ci
            (if decide (0 >= 3)
             then filter (fun e => in_span 3 0 (pos e)) two_elements
             else rev (filter (fun e => in_span 3 0 (pos e)) two_elements))
            0).
Proof.
  apply (qpropagate_applies_span 3 Ci caller_list 0
           (caller_store [ident_at_2; shift_at_1])
           [ident_at_2; shift_at_1] two_elements).
  - reflexivity.
  - apply perm_swap.
  - apply two_elements_ascending.
Defined.

Lemma within_within (zini z : R) (l : list element) :
  within zini z (within zini z l) = within zini z l.
Proof.
  unfold within. rewrite list_filter_filter. apply list_filter_iff. tauto.
Qed.

(** X11: on a list without two elements at one position, the value
    returned depends only on the elements within the closed span between
    [z_ini] and [z]: the call on the whole list and the call on the list of
    those elements return the same q-parameter. *)
Theorem qpropagate_within (zini : R) (qini : complex) (z : R)
    (l1 l2 : loc) (s1 s2 : gmap loc (list element)) (els : list element) :
  s1 !! l1 = Some els -> s2 !! l2 = Some (within zini z els) ->
  NoDup (pos <$> els) ->
  exists q : complex,
    result (qpropagate zini qini l1 z s1) = Some q /\
    result (qpropagate zini qini l2 z s2) = Some q.
Proof.
  intros H1 H2 Hnd.
  destruct (ascending_exists els Hnd) as (asc & Hperm & Hsorted).
  assert (within zini z asc ≡ₚ within zini z els) as Hperm'.
  { unfold within. rewrite Hperm. reflexivity. }
  assert (StronglySorted pos_lt (within zini z asc)) as Hsorted'.
  { apply StronglySorted_filter, Hsorted. }
  eexists. split.
  - rewrite (qpropagate_result _ _ _ _ _ els asc H1 Hperm Hsorted).
    rewrite (qpropagate_fun_span _ _ _ _ Hsorted). reflexivity.
  - rewrite (qpropagate_result _ _ _ _ _ _ _ H2 Hperm' Hsorted').
    rewrite (qpropagate_fun_span _ _ _ _ Hsorted').
    unfold span_path. rewrite within_within. reflexivity.
Qed.

Lemma qpropagate_within_witness :
  exists q : complex,
    result (qpropagate 0 Ci caller_list (3 / 2) (caller_store two_elements))
    = Some q /\
    result (qpropagate 0 Ci caller_list (3 / 2)
              (caller_store (within 0 (3 / 2) two_elements))) = Some q.
Proof.
  apply (qpropagate_within 0 Ci (3 / 2) caller_list caller_list
           (caller_store two_elements)
           (caller_store (within 0 (3 / 2) two_elements)) two_elements).
  - reflexivity.
  - reflexivity.
  - apply two_elements_NoDup.
Defined.

(** ** Validity along a traversal *)

Lemma fold_apply_fwd_valid (L : list element) :
  forall zt q, 0 < im q -> Forall (fun e => 0 < Mdet (mat e)) L ->
    0 < im (snd (fold_left apply_fwd L (zt, q))).
Proof.
  induction L as [|e L IH]; intros zt q Hq Hall; [exact Hq|].
  inversion Hall as [|? ? He HL]; subst. cbn [fold_left apply_fwd].
  apply IH; [|exact HL].
  apply qABCD_im_pos; [rewrite im_Cadd_r; exact Hq|exact He].
Qed.

Lemma fold_apply_bwd_valid (L : list element) :
  forall zt q, 0 < im q -> Forall (fun e => 0 < Mdet (mat e)) L ->
    0 < im (snd (fold_left apply_bwd L (zt, q))).
Proof.
  induction L as [|e L IH]; intros zt q Hq Hall; [exact Hq|].
  inversion Hall as [|? ? He HL]; subst. cbn [fold_left apply_bwd].
  apply IH; [|exact HL].
  apply qABCD_im_pos; [rewrite im_Cadd_r; exact Hq|exact He].
Qed.

Lemma Forall_span_path (P : element -> Prop) (zini z : R)
    (els asc : list element) :
  asc ≡ₚ els -> Forall P els -> Forall P (span_path zini asc z).
Proof.
  intros Hperm. rewrite !Forall_forall. intros H e He. apply H.
  apply elem_of_span_path in He as [He _]. rewrite <- Hperm. exact He.
Qed.

Lemma qalong_valid (zini z : R) (qini : complex) (L : list element) :
  0 < im qini -> Forall (fun e => 0 < Mdet (mat e)) L ->
  0 < im (qalong zini qini L z).
Proof.
  intros Hq Hall. unfold qalong. destruct (decide (z >= zini)).
  - pose proof (fold_apply_fwd_valid L zini qini Hq Hall) as H.
    destruct (fold_left apply_fwd L (zini, qini)) as [zt qt].
    rewrite im_Cadd_r. exact H.
  - assert (0 < im (qreverse qini)) as Hr by (rewrite im_qreverse; exact Hq).
    pose proof (fold_apply_bwd_valid L zini (qreverse qini) Hr Hall) as H.
    destruct (fold_left apply_bwd L (zini, qreverse qini)) as [zt qt].
    rewrite im_qreverse, im_Cadd_r. exact H.
Qed.

(** X12: from a q-parameter of positive imaginary part, through matrices of
    positive determinant at pairwise different positions, a call returns a
    q-parameter of positive imaginary part. *)
Theorem qpropagate_preserves_validity (zini : R) (qini : complex) (l : loc)
    (z : R) (s : gmap loc (list element)) (els : list element) :
  s !! l = Some els -> NoDup (pos <$> els) -> 0 < im qini ->
  Forall (fun e => 0 < Mdet (mat e)) els ->
  exists q : complex,
    result (qpropagate zini qini l z s) = Some q /\ 0 < im q.
Proof.
  intros Hl Hnd Hq Hall.
  destruct (ascending_exists els Hnd) as (asc & Hperm & Hsorted).
  eexists. split; [apply (qpropagate_result _ _ _ _ _ els asc); assumption|].
  rewrite (qpropagate_fun_span _ _ _ _ Hsorted).
  apply qalong_valid; [exact Hq|].
  apply (Forall_span_path _ _ _ els); assumption.
Qed.

Lemma qpropagate_preserves_validity_witness :
  exists q : complex,
    result (qpropagate 3 Ci caller_list 0 (caller_store two_elements))
    = Some q /\ 0 < im q.
Proof.
  apply (qpropagate_preserves_validity 3 Ci caller_list 0
           (caller_store two_elements) two_elements).
  - reflexivity.
  - apply two_elements_NoDup.
  - simpl. lra.
  - repeat constructor; unfold Mdet; simpl; lra.
Defined.

(** ** Propagation in two stages *)

(** Moving the walked location forward to [z1], with the gap added to the
    q-parameter, changes nothing when no remaining item lies before [z1]. *)
Lemma fold_body_fwd_shift (z z1 : R) (l : list element) :
  forall zt q, zt <= z1 <= z ->
    Forall (fun e => z1 <= pos e) l ->
    (let '(zt', q') := fold_left (body_fwd z) l (zt, q) in
     Cadd_r q' (z - zt'))
    = (let '(zt', q') :=
         fold_left (body_fwd z) l (z1, Cadd_r q (z1 - zt)) in
       Cadd_r q' (z - zt')).
Proof.
  induction l as [|e l IH]; intros zt q Hz Hall.
  - simpl. rewrite Cadd_r_Cadd_r. f_equal. lra.
  - inversion Hall as [|? ? He Hl]; subst. cbn [fold_left].
    destruct (decide (pos e <= z)) as [Hin|Hout].
    + rewrite !body_fwd_in by lra. rewrite Cadd_r_Cadd_r.
      replace (z1 - zt + (pos e - z1)) with (pos e - zt) by lra.
      reflexivity.
    + rewrite !body_fwd_out by lra. apply IH; assumption.
Qed.

Lemma fold_body_fwd_skip (z : R) (l : list element) :
  forall zt q, Forall (fun e => z < pos e) l ->
    fold_left (body_fwd z) l (zt, q) = (zt, q).
Proof.
  induction l as [|e l IH]; intros zt q Hall; [reflexivity|].
  inversion Hall as [|? ? He Hl]; subst. cbn [fold_left].
  rewrite body_fwd_out by lra. apply IH, Hl.
Qed.

Lemma forward_two_stages (z1 z2 : R) (l : list element) :
  StronglySorted pos_le l -> Forall (fun e => pos e <> z1) l ->
  forall zt q, zt <= z1 <= z2 ->
    (let '(zt', q') := fold_left (body_fwd z2) l (zt, q) in
     Cadd_r q' (z2 - zt'))
    = (let '(zt', q') :=
         fold_left (body_fwd z2) l
           (z1, let '(zt1, q1) := fold_left (body_fwd z1) l (zt, q) in
                Cadd_r q1 (z1 - zt1)) in
       Cadd_r q' (z2 - zt')).
Proof.
  induction 1 as [|e l Hl IH He]; intros Hne zt q Hz.
  - simpl. rewrite Cadd_r_Cadd_r. f_equal. lra.
  - inversion Hne as [|? ? Hne1 Hne2]; subst.
    destruct (decide (pos e < z1)) as [Hlow|Hhigh].
    + cbn [fold_left]. rewrite (body_fwd_out z2 z1) by lra.
      destruct (decide (zt <= pos e)) as [Hin|Hout].
      * rewrite !body_fwd_in by lra. apply IH; [exact Hne2|lra].
      * rewrite !body_fwd_out by lra. apply IH; [exact Hne2|lra].
    + assert (Forall (fun e' => z1 < pos e') (e :: l)) as Habove.
      { constructor; [lra|]. eapply Forall_impl; [exact He|].
        unfold pos_le. intros e' He'. lra. }
      rewrite (fold_body_fwd_skip z1) by exact Habove.
      apply fold_body_fwd_shift; [exact Hz|].
      eapply Forall_impl; [exact Habove|]. intros e'. simpl. lra.
Qed.

(** X13: forward propagation in two stages.  When no two elements share a
    position, [z_ini <= z1 <= z2] and no element sits at [z1], the call to
    [z1] followed by the call from [z1] to [z2] returns what the call from
    [z_ini] to [z2] returns. *)
Theorem qpropagate_two_stages (zini z1 z2 : R) (qini : complex) (l : loc)
    (s : gmap loc (list element)) (els : list element) :
  s !! l = Some els -> NoDup (pos <$> els) -> zini <= z1 <= z2 ->
  Forall (fun e => pos e <> z1) els ->
  exists (q1 q2 : complex) (s1 : gmap loc (list element)),
    qpropagate zini qini l z1 s = Some (Return q1, s1) /\
    result (qpropagate z1 q1 l z2 s1) = Some q2 /\
    result (qpropagate zini qini l z2 s) = Some q2.
Proof.
  intros Hl Hnd Hz Hne.
  destruct (sort_Some els Hnd) as (asc & Hsort & Hperm & Hsorted).
  eexists _, _, _.
  split; [apply (qpropagate_run _ _ _ _ _ els asc Hl Hsort)|].
  split; [|apply (qpropagate_result _ _ _ _ _ els asc); assumption].
  rewrite (qpropagate_result _ _ _ _ _ els asc
             (lookup_after_call _ _ _ _ Hl) Hperm Hsorted).
  f_equal. unfold qpropagate_fun.
  rewrite !decide_True by lra. symmetry.
  apply forward_two_stages; [apply sorted_lt_le, Hsorted| |lra].
  rewrite Forall_forall in *. intros e He. apply Hne.
  rewrite <- Hperm. exact He.
Qed.

Lemma qpropagate_two_stages_witness :
  exists (q1 q2 : complex) (s1 : gmap loc (list element)),
    qpropagate 0 Ci caller_list (3 / 2) (caller_store two_elements)
    = Some (Return q1, s1) /\
    result (qpropagate (3 / 2) q1 caller_list 3 s1) = Some q2 /\
    result (qpropagate 0 Ci caller_list 3 (caller_store two_elements))
    = Some q2.
Proof.
  apply (qpropagate_two_stages 0 (3 / 2) 3 Ci caller_list
           (caller_store two_elements) two_elements).
  - reflexivity.
  - apply two_elements_NoDup.
  - lra.
  - repeat constructor; simpl; lra.
Defined.

(** ** There and back *)

(** In the reversed frame a matrix with equal diagonal entries undoes
    itself. *)
Lemma qABCD_qreverse (q : complex) (M : matrix) :
  m00 M = m11 M -> 0 < Mdet M -> 0 < im q ->
  qABCD (qreverse (qABCD q M)) M = qreverse q.
Proof.
  intros Hsym Hdet Hq.
  assert (0 < denom2 q M) as H1 by (apply denom2_pos; lra).
  assert (0 < denom2 (qreverse (qABCD q M)) M) as H2.
  { apply denom2_pos; [|lra]. rewrite im_qreverse.
    apply qABCD_im_pos; assumption. }
  destruct q as [x y], M as [a b c d]. simpl in Hsym. subst d.
  unfold Mdet, denom2 in *. simpl in Hdet, H1, H2, Hq.
  set (n := (c * x + a) * (c * x + a) + c * y * (c * y)) in *.
  assert ((c * - ((a * x + b) * (c * x + a) + a * y * (c * y)) + a * n) *
          (c * - ((a * x + b) * (c * x + a) + a * y * (c * y)) + a * n) +
          c * - - (a * y * (c * x + a) - (a * x + b) * (c * y)) *
          (c * - - (a * y * (c * x + a) - (a * x + b) * (c * y))) <> 0) as H3.
  { intros E.
    match type of H2 with 0 < ?h =>
      match type of E with ?e = 0 =>
        assert (h = e / (n * n)) as E2
          by (unfold n in *; field; lra)
      end
    end.
    rewrite E2, E in H2. unfold Rdiv in H2. rewrite Rmult_0_l in H2. lra. }
  clear H2. unfold n in H3.
  apply complex_eq; simpl.
  - field_simplify_eq; [ring|]. split; [unfold n in H1; lra|exact H3].
  - field_simplify_eq; [ring|]. split; [unfold n in H1; lra|exact H3].
Qed.

(** Forward along [F] and then backward along [rev F] in the reversed
    frame: what is left is the reversed starting value. *)
Lemma there_and_back (F : list element) :
  forall zt q z, 0 < im q -> Forall symmetric_el F ->
    let '(zt', q') := fold_left apply_fwd F (zt, q) in
    let '(zb, qb) :=
      fold_left apply_bwd (rev F) (z, qreverse (Cadd_r q' (z - zt'))) in
    Cadd_r qb (zb - zt) = qreverse q.
Proof.
  induction F as [|e F IH]; intros zt q z Hq Hall.
  - simpl. apply qreverse_shift.
  - inversion Hall as [|? ? [Hsym Hdet] HF]; subst.
    cbn [fold_left apply_fwd rev].
    set (q1 := qABCD (Cadd_r q (pos e - zt)) (mat e)).
    assert (0 < im q1) as Hq1.
    { apply qABCD_im_pos; [rewrite im_Cadd_r; exact Hq|exact Hdet]. }
    specialize (IH (pos e) q1 z Hq1 HF).
    destruct (fold_left apply_fwd F (pos e, q1)) as [zt' q'].
    rewrite fold_left_app.
    destruct (fold_left apply_bwd (rev F) _) as [zb qb].
    cbn [fold_left apply_bwd]. rewrite IH. unfold q1.
    rewrite qABCD_qreverse;
      [|exact Hsym|exact Hdet|rewrite im_Cadd_r; exact Hq].
    apply qreverse_shift.
Qed.

Lemma back_and_there (D : list element) :
  forall zt r z, 0 < im r -> Forall symmetric_el D ->
    let '(zb, qb) := fold_left apply_bwd D (zt, r) in
    let '(zf, qf) :=
      fold_left apply_fwd (rev D) (z, qreverse (Cadd_r qb (zb - z))) in
    Cadd_r qf (zt - zf) = qreverse r.
Proof.
  induction D as [|e D IH]; intros zt r z Hr Hall.
  - simpl. apply qreverse_shift.
  - inversion Hall as [|? ? [Hsym Hdet] HD]; subst.
    cbn [fold_left apply_bwd rev].
    set (r1 := qABCD (Cadd_r r (zt - pos e)) (mat e)).
    assert (0 < im r1) as Hr1.
    { apply qABCD_im_pos; [rewrite im_Cadd_r; exact Hr|exact Hdet]. }
    specialize (IH (pos e) r1 z Hr1 HD).
    destruct (fold_left apply_bwd D (pos e, r1)) as [zb qb].
    rewrite fold_left_app.
    destruct (fold_left apply_fwd (rev D) _) as [zf qf].
    cbn [fold_left apply_fwd]. rewrite IH. unfold r1.
    rewrite qABCD_qreverse;
      [|exact Hsym|exact Hdet|rewrite im_Cadd_r; exact Hr].
    apply qreverse_shift.
Qed.

Lemma within_sym (zini z : R) (els : list element) :
  within z zini els = within zini z els.
Proof. unfold within. apply list_filter_iff. intros e. unfold in_span. tauto. Qed.

Lemma qpropagate_fun_round_trip (zini z : R) (qini : complex)
    (asc : list element) :
  StronglySorted pos_lt asc ->
  zini <> z -> 0 < im qini -> Forall symmetric_el asc ->
  qpropagate_fun z (qpropagate_fun zini qini asc z) asc zini = qini.
Proof.
  intros Hsorted Hne Hq Hall.
  rewrite !(qpropagate_fun_span _ _ _ _ Hsorted).
  unfold span_path. rewrite (within_sym zini z).
  set (T := within zini z asc).
  assert (Forall symmetric_el T) as HT.
  { unfold T, within. rewrite Forall_forall in *. intros e He.
    apply list_elem_of_filter in He as [_ He]. apply Hall, He. }
  unfold qalong.
  destruct (decide (z >= zini)) as [Hge|Hlt].
  - destruct (decide (zini >= z)) as [Hge'|_]; [lra|].
    pose proof (there_and_back T zini qini z Hq HT) as H.
    destruct (fold_left apply_fwd T (zini, qini)) as [zt' q'].
    cbv beta iota zeta in H |- *.
    destruct (fold_left apply_bwd (rev T) _) as [zb qb].
    rewrite H. apply qreverse_qreverse.
  - destruct (decide (zini >= z)) as [_|Hlt']; [|lra].
    assert (0 < im (qreverse qini)) as Hr by (rewrite im_qreverse; exact Hq).
    assert (Forall symmetric_el (rev T)) as HT' by (apply Forall_rev, HT).
    pose proof (back_and_there (rev T) zini (qreverse qini) z Hr HT') as H.
    destruct (fold_left apply_bwd (rev T) _) as [zb qb].
    rewrite rev_involutive in H. cbv beta iota zeta in H |- *.
    destruct (fold_left apply_fwd T _) as [zf qf].
    rewrite H. apply qreverse_qreverse.
Qed.

(** X14: there and back.  Over matrices with equal diagonal entries and a
    positive determinant (those of [Mprop], [Mlens] and [Mmirror]) at
    pairwise different positions, from a q-parameter of positive imaginary
    part, propagating from [z_ini] to a different [z] and then from [z]
    back to [z_ini] over the same list returns the initial q-parameter. *)
Theorem qpropagate_round_trip (zini z : R) (qini : complex) (l : loc)
    (s : gmap loc (list element)) (els : list element) :
  s !! l = Some els -> NoDup (pos <$> els) -> zini <> z -> 0 < im qini ->
  Forall symmetric_el els ->
  exists (q1 : complex) (s1 : gmap loc (list element)),
    qpropagate zini qini l z s = Some (Return q1, s1) /\
    result (qpropagate z q1 l zini s1) = Some qini.
Proof.
  intros Hl Hnd Hne Hq Hall.
  destruct (sort_Some els Hnd) as (asc & Hsort & Hperm & Hsorted).
  eexists _, _.
  split; [apply (qpropagate_run _ _ _ _ _ els asc Hl Hsort)|].
  rewrite (qpropagate_result _ _ _ _ _ els asc
             (lookup_after_call _ _ _ _ Hl) Hperm Hsorted).
  f_equal. apply qpropagate_fun_round_trip; try assumption.
  rewrite Hperm. exact Hall.
Qed.

Lemma qpropagate_round_trip_witness :
  exists (q1 : complex) (s1 : gmap loc (list element)),
    qpropagate 0 Ci caller_list 3 (caller_store two_elements)
    = Some (Return q1, s1) /\
    result (qpropagate 3 q1 caller_list 0 s1) = Some Ci.
Proof.
  apply (qpropagate_round_trip 0 3 Ci caller_list
           (caller_store two_elements) two_elements).
  - reflexivity.
  - apply two_elements_NoDup.
  - lra.
  - simpl. lra.
  - repeat constructor; unfold Mdet; simpl; lra.
Defined.

(** X15: staying put.  When no two elements share a position and none sits
    at [z_ini], the call from [z_ini] to [z_ini] returns the initial
    q-parameter. *)
Theorem qpropagate_stay_put (zini : R) (qini : complex) (l : loc)
    (s : gmap loc (list element)) (els : list element) :
  s !! l = Some els -> NoDup (pos <$> els) ->
  Forall (fun e => pos e <> zini) els ->
  result (qpropagate zini qini l zini s) = Some qini.
Proof.
  intros Hl Hnd Hne.
  destruct (ascending_exists els Hnd) as (asc & Hperm & Hsorted).
  rewrite (qpropagate_result _ _ _ _ _ els asc Hl Hperm Hsorted). f_equal.
  rewrite (qpropagate_fun_span _ _ _ _ Hsorted). unfold span_path.
  assert (within zini zini asc = []) as ->.
  { rewrite <- Hperm in Hne. unfold within. clear -Hne.
    induction Hne as [|e asc He _ IH]; [reflexivity|].
    rewrite filter_cons_False; [exact IH|].
    unfold in_span. lra. }
  rewrite decide_True by lra. unfold qalong. rewrite decide_True by lra.
  simpl. apply complex_eq; simpl; lra.
Qed.

Lemma qpropagate_stay_put_witness :
  result (qpropagate 0 Ci caller_list 0 (caller_store two_elements)) = Some Ci.
Proof.
  apply (qpropagate_stay_put 0 Ci caller_list (caller_store two_elements)
           two_elements).
  - reflexivity.
  - apply two_elements_NoDup.
  - repeat constructor; simpl; lra.
Defined.
